(** * env-resolver: pattern expansion and candidate selection

    A shallow embedding of [src/resolver.ts] and the properties of its
    three parts: the inline pattern normaliser, the combination generator
    ([generatePatternCombinations]) and the resolver ([resolveEnvPath]).

    JavaScript strings are modelled as [string]; arrays as [list], indexed
    with stdpp's lookup [!!] and updated in place with [alter]. *)

From Stdlib Require Import Ascii String Arith Lia.
From stdpp Require Import base list strings.

(** ** The JavaScript primitives the source relies on *)

Module JS.

(** [!s], negated: the empty string is the only falsy string. *)
Definition truthy (s : string) : bool :=
  match s with
  | EmptyString => false
  | String _ _ => true
  end.

(** Truthiness of a value of type [string | null]. *)
Definition truthyNullable (v : option string) : bool :=
  match v with
  | Some s => truthy s
  | None => false
  end.

(** [v || d] for [v : string | undefined]. *)
Definition or (v : option string) (d : string) : string :=
  match v with
  | Some s => if truthy s then s else d
  | None => d
  end.

(** [Array.prototype.join(sep)] on an array of strings. *)
Definition join (sep : string) (parts : list string) : string :=
  String.concat sep parts.
#[global] Arguments join : simpl never.

(** [str.indexOf(search)]: position of the first occurrence. *)
Fixpoint indexOf (str search : string) : option nat :=
  if String.prefix search str then Some 0
  else match str with
       | EmptyString => None
       | String _ rest => S <$> indexOf rest search
       end.

(** [str.substring(from)]: everything from position [from] on. *)
Definition substringFrom (from : nat) (str : string) : string :=
  String.substring from (String.length str - from) str.

(** ECMAScript's [GetSubstitution] for a string (non-RegExp) pattern:
    there are no captures, so [$n] and [$<name>] stay as they are, while
    [$$], [$&], [$`] and [$'] are expanded. *)
Fixpoint GetSubstitution (matched str : string) (position : nat)
         (template : string) : string :=
  match template with
  | EmptyString => EmptyString
  | String c rest =>
      if Ascii.eqb c "$" then
        match rest with
        | String d rest' =>
            if Ascii.eqb d "$" then
              String "$" (GetSubstitution matched str position rest')
            else if Ascii.eqb d "&" then
              matched +:+ GetSubstitution matched str position rest'
            else if Ascii.eqb d "`" then
              String.substring 0 position str
                +:+ GetSubstitution matched str position rest'
            else if Ascii.eqb d "'" then
              substringFrom (position + String.length matched) str
                +:+ GetSubstitution matched str position rest'
            else String c (GetSubstitution matched str position rest)
        | EmptyString => String c EmptyString
        end
      else String c (GetSubstitution matched str position rest)
  end.

(** [str.replace(searchValue, replaceValue)] with both arguments strings:
    only the first occurrence is replaced, and the replacement goes
    through [GetSubstitution]. *)
Definition replace (str searchValue replaceValue : string) : string :=
  match indexOf str searchValue with
  | None => str
  | Some pos =>
      String.substring 0 pos str
        +:+ GetSubstitution searchValue str pos replaceValue
        +:+ substringFrom (pos + String.length searchValue) str
  end.

End JS.

(** ** Data model *)

Inductive PartType : Set :=
| filename
| node_env.

(** [EnvPatternPart]; the field [optional?: boolean] may be absent. *)
Record EnvPatternPart : Set := mkPart {
  value : string;
  type : PartType;
  optional : option bool
}.

(** Truthiness of [part.optional]. *)
Definition isOptional (part : EnvPatternPart) : bool :=
  match optional part with
  | Some b => b
  | None => false
  end.

(** [process.env.NODE_ENV || 'development'] *)
Definition activeEnv (NODE_ENV : option string) : string :=
  JS.or NODE_ENV "development".

(** The normaliser, as inlined at line 45 and in the callback of
    [processPattern]:
    [part.type === 'node_env' ? part.value.replace('$1', env) : part.value] *)
Definition processed (env : string) (part : EnvPatternPart) : string :=
  match type part with
  | node_env => JS.replace (value part) "$1" env
  | filename => value part
  end.

Definition processPattern (NODE_ENV : option string)
           (pattern : list EnvPatternPart) : string :=
  let env := activeEnv NODE_ENV in
  JS.join EmptyString (map (processed env) pattern).

(** ** The combination generator *)

(** Body of the [for] loop at index [i].  [i] stays below [currentLength],
    which is at most the length of [combinations], so the index is always
    in range (lemma [forLoop_index_in_range]). *)
Definition forBody (part : EnvPatternPart) (contribution : string)
           (combinations : list (list string)) (i : nat)
  : list (list string) :=
  let combinations :=
    if isOptional part
    then combinations ++ [default [] (combinations !! i)]
    else combinations in
  alter (λ c, c ++ [contribution]) i combinations.

(** [for (let i = 0; i < currentLength; i++) { ... }] *)
Definition forLoop (part : EnvPatternPart) (contribution : string)
           (currentLength : nat) (combinations : list (list string))
  : list (list string) :=
  foldl (forBody part contribution) combinations (seq 0 currentLength).

(** Callback of [pattern.forEach]. *)
Definition forEachBody (env : string) (combinations : list (list string))
           (part : EnvPatternPart) : list (list string) :=
  let contribution := processed env part in
  let currentLength := length combinations in
  forLoop part contribution currentLength combinations.

Definition generatePatternCombinations (NODE_ENV : option string)
           (pattern : list EnvPatternPart) : list string :=
  let env := activeEnv NODE_ENV in
  let combinations := foldl (forEachBody env) [[]] pattern in
  map (JS.join EmptyString) combinations.

(** ** The reference algorithm of the specification (section 4.2)

    It works on filename prefixes (strings) and is parameterised by the
    contribution of a part (section 4.1). *)

Module Reference.
Section Algorithm.
Variable contribution : EnvPatternPart → string.

(** One part: if it is optional, first clone every existing prefix as it
    is onto the end of the working list; then append the contribution to
    every prefix that existed before the clone step. *)
Definition step (prefixes : list string) (part : EnvPatternPart)
  : list string :=
  let existing := length prefixes in
  let working := if isOptional part then prefixes ++ prefixes else prefixes in
  map (λ s, s +:+ contribution part) (take existing working)
    ++ drop existing working.

(** Start with one empty prefix and process the parts in sequence order. *)
Definition combinations (pattern : list EnvPatternPart) : list string :=
  foldl step [EmptyString] pattern.

(** The candidate at list position [p]: reading [p] in binary from its
    least significant bit, the i-th bit set means that the i-th optional
    part (in pattern order) is excluded. *)
Fixpoint combinationAt (pattern : list EnvPatternPart) (p : nat) : string :=
  match pattern with
  | [] => EmptyString
  | part :: rest =>
      if isOptional part then
        (if Nat.even p then contribution part else EmptyString)
          +:+ combinationAt rest (p / 2)
      else contribution part +:+ combinationAt rest p
  end.

(** The combination in which exactly the parts at the pattern indices
    accepted by [excluded] are left out. *)
Fixpoint combinationWithout (excluded : nat → bool)
         (pattern : list EnvPatternPart) (index : nat) : string :=
  match pattern with
  | [] => EmptyString
  | part :: rest =>
      (if excluded index then EmptyString else contribution part)
        +:+ combinationWithout excluded rest (S index)
  end.
End Algorithm.
End Reference.

(** Number of optional parts of a pattern. *)
Definition optionalCount (pattern : list EnvPatternPart) : nat :=
  length (List.filter isOptional pattern).

(** ** The resolver *)

(** What a call does to the outside world, in order. *)
Inductive Effect : Set :=
| ExistsSync (path : string)
| LoggerWarn (message : string)
| LoggerLog (message : string).

(** A call either returns or throws an [Error] with a message. *)
Inductive Completion (A : Type) : Type :=
| Returned (result : A)
| Thrown (message : string).
Arguments Returned {A} result.
Arguments Thrown {A} message.

(** Computations that emit effects and may throw. *)
Definition Run (A : Type) : Type := Completion A * list Effect.

Definition ret {A} (a : A) : Run A := (Returned a, []).
Definition throw {A} (message : string) : Run A := (Thrown message, []).
Definition emit (e : Effect) : Run unit := (Returned tt, [e]).
Definition bind {A B} (m : Run A) (k : A → Run B) : Run B :=
  match m with
  | (Returned a, trace) => let '(r, trace') := k a in (r, trace ++ trace')
  | (Thrown message, trace) => (Thrown message, trace)
  end.

Declare Scope run_scope.
Delimit Scope run_scope with run.
Notation "x <- m ;; k" := (bind m (λ x, k))
  (at level 100, m at next level, right associativity) : run_scope.
Notation "m ;; k" := (bind m (λ _, k))
  (at level 100, right associativity) : run_scope.

Definition completion {A} (r : Run A) : Completion A := fst r.
Definition effects {A} (r : Run A) : list Effect := snd r.

(** The existence tests of a trace, and its notifications. *)
Definition probes (trace : list Effect) : list string :=
  omap (λ e, match e with ExistsSync path => Some path | _ => None end) trace.

Definition notifications (trace : list Effect) : list Effect :=
  List.filter
    (λ e, match e with ExistsSync _ => false | _ => true end) trace.

Record Config : Set := mkConfig {
  resolvedBy : option string;
  filepath : option string
}.

Definition LF : string := String "010" EmptyString.

(** The pattern a call uses when the caller passes none. *)
Definition defaultArgumentPattern : list EnvPatternPart :=
  [ mkPart ".env" filename None;
    mkPart ".$1" node_env (Some true) ].

(** [defaultPattern], the built-in fallback. *)
Definition defaultPattern : list EnvPatternPart :=
  [ mkPart ".env" filename None ].

Definition filesToTry (NODE_ENV : option string)
           (pattern : list EnvPatternPart) : list string :=
  generatePatternCombinations NODE_ENV pattern
    ++ generatePatternCombinations NODE_ENV defaultPattern.

(** The text of the error thrown when no candidate exists. *)
Definition failureMessage (filesToTry : list string) : string :=
  "Couldn't load environment file from any sources:"
    +:+ LF +:+ "Tried: " +:+ JS.join (LF +:+ "  - ") filesToTry.

Section Resolver.
(** [path.resolve] for the working directory of the process. *)
Variable resolve : string → string.
(** The state of the filesystem, as seen by [fs.existsSync]. *)
Variable existsSync : string → bool.
(** Text styling of colors-cli. *)
Variables green cyan : string → string.

(** The path tested for a candidate: [resolve(`${dest}/${filename}`)]. *)
Definition candidatePath (dest candidate : string) : string :=
  resolve (dest +:+ "/" +:+ candidate).

(** [for (const filename of filesToTry) { ... break }] *)
Fixpoint forOf (dest : string) (files : list string) (config : Config)
  : Run Config :=
  match files with
  | [] => ret config
  | candidate :: rest =>
      let path := resolve (dest +:+ "/" +:+ candidate) in
      (emit (ExistsSync path) ;;
       if existsSync path
       then ret (mkConfig (Some candidate) (Some path))
       else forOf dest rest config)%run
  end.

(** The notification after a match; [resolvedBy] is not [null] there. *)
Definition notify (ignoreEnvSpecificWarn : bool) (resolvedBy : option string)
  : Run unit :=
  if bool_decide (resolvedBy = Some ".env") then
    if negb ignoreEnvSpecificWarn
    then emit (LoggerWarn "Using fallback .env file")
    else emit (LoggerLog "Using .env file")
  else
    emit (LoggerLog
            (green ("Using " +:+ cyan (default "null" resolvedBy)
                             +:+ " file"))).

Definition resolveEnvPath (NODE_ENV : option string) (dest : string)
           (ignoreEnvSpecificWarn : option bool)
           (pattern : option (list EnvPatternPart)) : Run string :=
  let ignoreEnvSpecificWarn := default false ignoreEnvSpecificWarn in
  let pattern := default defaultArgumentPattern pattern in
  let filesToTry := filesToTry NODE_ENV pattern in
  (config <- forOf dest filesToTry (mkConfig None None) ;;
   (if negb (JS.truthyNullable (filepath config))
    then throw (failureMessage filesToTry)
    else ret tt) ;;
   notify ignoreEnvSpecificWarn (resolvedBy config) ;;
   ret (default EmptyString (filepath config)))%run.
End Resolver.

(** The notification the resolver owes for a matched candidate. *)
Definition notice (green cyan : string → string)
           (ignoreEnvSpecificWarn : bool) (candidate : string) : Effect :=
  if bool_decide (candidate = ".env") then
    if ignoreEnvSpecificWarn
    then LoggerLog "Using .env file"
    else LoggerWarn "Using fallback .env file"
  else LoggerLog (green ("Using " +:+ cyan candidate +:+ " file")).

(** ** Notions used to state the properties *)

(** [str] is [pre], then [needle], then [post], and [needle] does not occur
    further to the left. *)
Definition FirstOccurrence (needle str pre post : string) : Prop :=
  str = pre +:+ needle +:+ post
  ∧ ∀ pre' post', str = pre' +:+ needle +:+ post' →
                  String.length pre ≤ String.length pre'.

Definition Absent (needle str : string) : Prop :=
  ∀ pre post, str ≠ pre +:+ needle +:+ post.

(** A candidate whose path does not exist, and one whose path exists. *)
Definition Missing (resolve : string → string) (existsSync : string → bool)
           (dest candidate : string) : Prop :=
  existsSync (candidatePath resolve dest candidate) = false.

Definition Present (resolve : string → string) (existsSync : string → bool)
           (dest candidate : string) : Prop :=
  existsSync (candidatePath resolve dest candidate) = true.

(** The reading of the list order given in prose: of two candidates that
    each leave out exactly one optional part, the one leaving out the later
    part comes first. *)
Definition LaterExclusionsFirst (NODE_ENV : option string)
           (pattern : list EnvPatternPart) : Prop :=
  let contribution := processed (activeEnv NODE_ENV) in
  let candidates := generatePatternCombinations NODE_ENV pattern in
  ∀ (i j : nat) (earlier later : EnvPatternPart) (pi pj : nat),
    i < j →
    pattern !! i = Some earlier → isOptional earlier = true →
    pattern !! j = Some later → isOptional later = true →
    candidates !! pi
    = Some (Reference.combinationWithout contribution (Nat.eqb i) pattern 0) →
    candidates !! pj
    = Some (Reference.combinationWithout contribution (Nat.eqb j) pattern 0) →
    pj < pi.

(** The custom pattern of scenario 4 (and of the README). *)
Definition scenario4 : list EnvPatternPart :=
  [ mkPart ".env" filename None;
    mkPart ".$1" node_env (Some true);
    mkPart ".local" filename (Some true) ].

(** Concrete collaborators for the examples. *)
Module Sample.
(** A POSIX [path.resolve] for a process started in [/srv]. *)
Definition resolve (path : string) : string :=
  if String.prefix "/" path then path else "/srv/" +:+ path.

(** A filesystem whose only file is [/app/.env]. *)
Definition onlyDotEnv (path : string) : bool := String.eqb path "/app/.env".

(** A filesystem without any file. *)
Definition nothing (path : string) : bool := false.

(** A filesystem with [/app/.env.production] and [/app/.env]. *)
Definition production (path : string) : bool :=
  String.eqb path "/app/.env.production" || String.eqb path "/app/.env".

(** No styling. *)
Definition plain (text : string) : string := text.
End Sample.

(** ** Notions used by the further properties *)

(** [excluded] leaves out optional parts only (indices counted from
    [index]). *)
Definition OnlyOptional (excluded : nat → bool)
           (pattern : list EnvPatternPart) (index : nat) : Prop :=
  ∀ (i : nat) (part : EnvPatternPart),
    pattern !! i = Some part → excluded (index + i) = true →
    isOptional part = true.

(** The list position of the combination that leaves out the optional parts
    accepted by [excluded]. *)
Fixpoint positionOf (excluded : nat → bool) (pattern : list EnvPatternPart)
         (index : nat) : nat :=
  match pattern with
  | [] => 0
  | part :: rest =>
      if isOptional part then
        (if excluded index then 1 else 0)
        + 2 * positionOf excluded rest (S index)
      else positionOf excluded rest (S index)
  end.

(** The parts left out by the combination at list position [p]. *)
Fixpoint excludedAt (pattern : list EnvPatternPart) (p index : nat)
         (j : nat) : bool :=
  match pattern with
  | [] => false
  | part :: rest =>
      if isOptional part then
        if Nat.eqb j index then Nat.odd p
        else excludedAt rest (p / 2) (S index) j
      else
        if Nat.eqb j index then false
        else excludedAt rest p (S index) j
  end.

(** The mandatory parts of a pattern. *)
Definition mandatoryParts (pattern : list EnvPatternPart)
  : list EnvPatternPart :=
  List.filter (λ part, negb (isOptional part)) pattern.



(** ** Strings *)

Lemma append_cons (c : ascii) (s t : string) :
  String c s +:+ t = String c (s +:+ t).
Proof. reflexivity. Qed.

Lemma append_empty_l (s : string) : EmptyString +:+ s = s.
Proof. reflexivity. Qed.

Lemma append_empty_r (s : string) : s +:+ EmptyString = s.
Proof. induction s as [|c s IH]; [done | by rewrite append_cons, IH]. Qed.

Lemma append_assoc (a b c : string) : (a +:+ b) +:+ c = a +:+ b +:+ c.
Proof. induction a as [|x a IH]; [done | by rewrite !append_cons, IH]. Qed.

Lemma length_append (a b : string) :
  String.length (a +:+ b) = String.length a + String.length b.
Proof.
  induction a as [|x a IH]; [done|]. rewrite append_cons. simpl. by rewrite IH.
Qed.

Lemma join_cons (s : string) (parts : list string) :
  JS.join EmptyString (s :: parts) = s +:+ JS.join EmptyString parts.
Proof.
  unfold JS.join. destruct parts as [|t parts]; simpl; [|done].
  by rewrite append_empty_r.
Qed.

Lemma join_snoc (parts : list string) (s : string) :
  JS.join EmptyString (parts ++ [s]) = JS.join EmptyString parts +:+ s.
Proof.
  induction parts as [|t parts IH].
  - done.
  - rewrite <- app_comm_cons, !join_cons, IH. by rewrite append_assoc.
Qed.

(** ** The [for] loop *)

Section ForLoop.
Variable part : EnvPatternPart.
Variable contribution : string.

Local Abbreviation push := (λ c : list string, c ++ [contribution]).
Local Abbreviation clones done := (if isOptional part then done else []).

(** State of [combinations] when the loop reaches index [i]. *)
Lemma forLoop_invariant (combinations : list (list string)) (i : nat) :
  i ≤ length combinations →
  foldl (forBody part contribution) combinations (seq 0 i)
  = map push (take i combinations) ++ drop i combinations
      ++ clones (take i combinations).
Proof.
  induction i as [|i IH]; intros Hi.
  - simpl. rewrite drop_0.
    destruct (isOptional part); simpl; by rewrite app_nil_r.
  - rewrite seq_S, foldl_snoc, IH by lia. simpl.
    destruct (lookup_lt_is_Some_2 combinations i) as [x Hx]; [lia|].
    rewrite (take_S_r _ _ _ Hx), (drop_S _ _ _ Hx).
    assert (Hlen : length (map push (take i combinations)) = i).
    { rewrite length_map, length_take. lia. }
    unfold forBody.
    destruct (isOptional part).
    + rewrite lookup_app_r, Hlen, Nat.sub_diag by lia. simpl.
      rewrite <- (app_assoc _ _ [x]).
      rewrite alter_app_r_alt by lia. rewrite Hlen, Nat.sub_diag. simpl.
      rewrite map_app. simpl. rewrite <- !app_assoc. done.
    + rewrite alter_app_r_alt by lia. rewrite Hlen, Nat.sub_diag. simpl.
      rewrite map_app. simpl. rewrite <- !app_assoc. done.
Qed.

(** Every index the loop reads or writes is in range. *)
Lemma forLoop_index_in_range (combinations : list (list string)) (i : nat) :
  i < length combinations →
  is_Some (foldl (forBody part contribution) combinations (seq 0 i) !! i).
Proof.
  intros Hi. rewrite forLoop_invariant by lia.
  apply lookup_lt_is_Some_2.
  rewrite !length_app, length_map, length_take, length_drop. lia.
Qed.

Lemma forLoop_all (combinations : list (list string)) :
  forLoop part contribution (length combinations) combinations
  = map push combinations ++ clones combinations.
Proof.
  unfold forLoop. rewrite forLoop_invariant by lia.
  by rewrite firstn_all, drop_all.
Qed.
End ForLoop.

Lemma forEachBody_unfold (env : string) (combinations : list (list string))
      (part : EnvPatternPart) :
  forEachBody env combinations part
  = map (λ c, c ++ [processed env part]) combinations
      ++ (if isOptional part then combinations else []).
Proof. unfold forEachBody. apply forLoop_all. Qed.

(** ** The reference algorithm *)

#[local] Arguments Nat.div : simpl never.
#[local] Arguments Nat.modulo : simpl never.

Section ReferenceFacts.
Variable contribution : EnvPatternPart → string.

Lemma step_unfold (prefixes : list string) (part : EnvPatternPart) :
  Reference.step contribution prefixes part
  = map (λ s, s +:+ contribution part) prefixes
      ++ (if isOptional part then prefixes else []).
Proof.
  unfold Reference.step. destruct (isOptional part).
  - by rewrite take_app_length, drop_app_length.
  - by rewrite firstn_all, drop_all.
Qed.

Lemma step_length (prefixes : list string) (part : EnvPatternPart) :
  length (Reference.step contribution prefixes part)
  = (if isOptional part then 2 else 1) * length prefixes.
Proof.
  rewrite step_unfold, length_app, length_map.
  destruct (isOptional part); simpl; lia.
Qed.

Lemma combinations_length_from (pattern : list EnvPatternPart)
      (prefixes : list string) :
  length (foldl (Reference.step contribution) prefixes pattern)
  = length prefixes * 2 ^ optionalCount pattern.
Proof.
  revert prefixes. induction pattern as [|part rest IH]; intros prefixes.
  - simpl. lia.
  - simpl. rewrite IH, step_length. unfold optionalCount. simpl.
    destruct (isOptional part); simpl; lia.
Qed.

(** Position [p] of the list grown from [prefixes]: the prefix is chosen by
    [p mod n], the parts that follow it by [p / n]. *)
Lemma combinations_lookup_from (pattern : list EnvPatternPart)
      (prefixes : list string) (p : nat) :
  p < length prefixes * 2 ^ optionalCount pattern →
  foldl (Reference.step contribution) prefixes pattern !! p
  = (λ s, s +:+ Reference.combinationAt contribution pattern
                       (p / length prefixes))
      <$> prefixes !! (p mod length prefixes).
Proof.
  revert prefixes p.
  induction pattern as [|part rest IH]; intros prefixes p Hp.
  - simpl in *. rewrite Nat.mul_1_r in Hp.
    rewrite Nat.mod_small by done.
    destruct (prefixes !! p) as [s|]; simpl; [|done].
    by rewrite append_empty_r.
  - assert (Hn : 0 < length prefixes) by (destruct prefixes; simpl in *; lia).
    set (n := length prefixes) in *.
    pose proof (Nat.mod_upper_bound p n ltac:(lia)) as Hr.
    simpl. rewrite IH; rewrite step_length; fold n.
    2:{ unfold optionalCount in *. simpl in Hp.
        destruct (isOptional part); simpl in *; lia. }
    rewrite step_unfold. fold n.
    destruct (isOptional part) eqn:Hopt.
    + rewrite (Nat.mul_comm 2 n), <- Nat.Div0.div_div, Nat.Div0.mod_mul_r.
      destruct (Nat.even (p / n)) eqn:Heven.
      * assert (Hev : (p / n) mod 2 = 0).
        { apply Nat.even_spec in Heven as [k Hk].
          rewrite Hk, Nat.mul_comm. apply Nat.Div0.mod_mul. }
        rewrite Hev, Nat.mul_0_r, Nat.add_0_r.
        rewrite lookup_app_l by (rewrite length_map; fold n; lia).
        rewrite list_lookup_fmap.
        destruct (prefixes !! (p mod n)) as [s|]; simpl; [|done].
        by rewrite append_assoc.
      * assert (Hodd : (p / n) mod 2 = 1).
        { rewrite <- Nat.negb_odd in Heven.
          apply negb_false_iff, Nat.odd_spec in Heven as [k Hk].
          rewrite Hk, Nat.add_comm, Nat.mul_comm. apply Nat.Div0.mod_add. }
        rewrite Hodd, Nat.mul_1_r.
        rewrite lookup_app_r by (rewrite length_map; fold n; lia).
        rewrite length_map. fold n.
        replace (p mod n + n - n) with (p mod n) by lia.
        done.
    + rewrite app_nil_r, Nat.mul_1_l, list_lookup_fmap.
      destruct (prefixes !! (p mod n)) as [s|]; simpl; [|done].
      by rewrite append_assoc.
Qed.

Lemma combinations_length (pattern : list EnvPatternPart) :
  length (Reference.combinations contribution pattern)
  = 2 ^ optionalCount pattern.
Proof.
  unfold Reference.combinations. rewrite combinations_length_from. simpl. lia.
Qed.

Lemma combinations_lookup (pattern : list EnvPatternPart) (p : nat) :
  p < 2 ^ optionalCount pattern →
  Reference.combinations contribution pattern !! p
  = Some (Reference.combinationAt contribution pattern p).
Proof.
  intros Hp. unfold Reference.combinations.
  rewrite combinations_lookup_from by (simpl; lia). simpl.
  by rewrite Nat.div_1_r.
Qed.

Lemma combinations_positions (pattern : list EnvPatternPart) :
  Reference.combinations contribution pattern
  = map (Reference.combinationAt contribution pattern)
        (seq 0 (2 ^ optionalCount pattern)).
Proof.
  apply list_eq. intros p.
  destruct (decide (p < 2 ^ optionalCount pattern)) as [Hp|Hp].
  - rewrite combinations_lookup by done.
    rewrite list_lookup_fmap, lookup_seq_lt by done. done.
  - rewrite !lookup_ge_None_2; [done| |].
    + rewrite length_map, length_seq. lia.
    + rewrite combinations_length. lia.
Qed.
End ReferenceFacts.

Lemma generate_from (env : string) (pattern : list EnvPatternPart)
      (combinations : list (list string)) :
  map (JS.join EmptyString) (foldl (forEachBody env) combinations pattern)
  = foldl (Reference.step (processed env))
          (map (JS.join EmptyString) combinations) pattern.
Proof.
  revert combinations.
  induction pattern as [|part rest IH]; intros combinations; [done|].
  simpl. rewrite IH. f_equal.
  rewrite forEachBody_unfold, step_unfold, map_app, !map_map.
  f_equal.
  - apply map_ext. intros c. apply join_snoc.
  - by destruct (isOptional part).
Qed.

Lemma generate_reference (NODE_ENV : option string)
      (pattern : list EnvPatternPart) :
  generatePatternCombinations NODE_ENV pattern
  = Reference.combinations (processed (activeEnv NODE_ENV)) pattern.
Proof. unfold generatePatternCombinations. by rewrite generate_from. Qed.

Section OrderingFacts.
Variable contribution : EnvPatternPart → string.

(** Position 0 holds the combination with every part included. *)
Lemma combinationAt_zero (pattern : list EnvPatternPart) :
  Reference.combinationAt contribution pattern 0
  = JS.join EmptyString (map contribution pattern).
Proof.
  induction pattern as [|part rest IH]; [done|].
  simpl. rewrite join_cons, Nat.Div0.div_0_l, IH.
  by destruct (isOptional part).
Qed.

Lemma combinationWithout_none (excluded : nat → bool)
      (pattern : list EnvPatternPart) (index : nat) :
  (∀ j, index ≤ j → excluded j = false) →
  Reference.combinationWithout contribution excluded pattern index
  = JS.join EmptyString (map contribution pattern).
Proof.
  revert index. induction pattern as [|part rest IH]; intros index Hex; [done|].
  simpl. rewrite join_cons, (Hex index) by lia.
  rewrite (IH (S index)); [done|]. intros j Hj. apply Hex. lia.
Qed.

(** The combination that leaves out only the optional part at pattern
    index [i] sits at position [2 ^ r], [r] being the number of optional
    parts before it. *)
Lemma combinationAt_single (pattern : list EnvPatternPart) (i index : nat)
      (part : EnvPatternPart) :
  pattern !! i = Some part →
  isOptional part = true →
  Reference.combinationAt contribution pattern
    (2 ^ optionalCount (take i pattern))
  = Reference.combinationWithout contribution (Nat.eqb (index + i))
      pattern index.
Proof.
  revert i index.
  induction pattern as [|first rest IH]; intros i index Hi Hopt; [done|].
  destruct i as [|i]; simpl in Hi.
  - injection Hi as ->. simpl. rewrite Hopt, Nat.add_0_r, Nat.eqb_refl.
    change (2 ^ optionalCount []) with 1.
    rewrite (Nat.div_small 1 2) by lia. simpl.
    rewrite combinationAt_zero, combinationWithout_none; [done|].
    intros j Hj. apply Nat.eqb_neq. lia.
  - simpl. replace (index + S i) with (S index + i) by lia.
    rewrite <- (IH i (S index) Hi Hopt).
    replace (S index + i =? index) with false
      by (symmetry; apply Nat.eqb_neq; lia).
    unfold optionalCount. simpl.
    destruct (isOptional first); simpl; [|done].
    rewrite Nat.add_0_r.
    replace (2 ^ _ + 2 ^ _)
      with (2 ^ length (List.filter isOptional (take i rest)) * 2) by lia.
    rewrite Nat.div_mul by lia.
    rewrite Nat.even_mul. simpl. by rewrite orb_true_r.
Qed.
End OrderingFacts.

(** ** [indexOf], [substring] and [replace] *)

Lemma prefix_append (a b : string) : String.prefix a (a +:+ b) = true.
Proof.
  induction a as [|x a IH]; [by destruct b|].
  rewrite append_cons. simpl. by destruct (ascii_dec x x).
Qed.

Lemma prefix_split (a s : string) :
  String.prefix a s = true → ∃ b, s = a +:+ b.
Proof.
  revert s. induction a as [|x a IH]; intros s H; [by exists s|].
  destruct s as [|y s]; simpl in H; [done|].
  destruct (ascii_dec x y) as [->|]; [|done].
  destruct (IH s H) as [b ->]. by exists b.
Qed.

Lemma indexOf_unfold (str search : string) :
  JS.indexOf str search
  = if String.prefix search str then Some 0
    else match str with
         | EmptyString => None
         | String _ rest => S <$> JS.indexOf rest search
         end.
Proof. by destruct str. Qed.

Lemma indexOf_first (needle str pre post : string) :
  FirstOccurrence needle str pre post →
  JS.indexOf str needle = Some (String.length pre).
Proof.
  revert str. induction pre as [|c pre IH]; intros str [-> Hmin].
  - by rewrite append_empty_l, indexOf_unfold, prefix_append.
  - rewrite append_cons, indexOf_unfold.
    destruct (String.prefix needle (String c (pre +:+ needle +:+ post))) eqn:E.
    + apply prefix_split in E as [b Hb].
      specialize (Hmin EmptyString b). rewrite append_empty_l in Hmin.
      specialize (Hmin Hb). simpl in Hmin. lia.
    + rewrite (IH (pre +:+ needle +:+ post)); [done|]. split; [done|].
      intros pre' post' H.
      specialize (Hmin (String c pre') post'). rewrite !append_cons in Hmin.
      rewrite H in Hmin. specialize (Hmin eq_refl). simpl in Hmin. lia.
Qed.

Lemma indexOf_absent (needle str : string) :
  Absent needle str → JS.indexOf str needle = None.
Proof.
  induction str as [|c str IH]; intros Habs.
  - rewrite indexOf_unfold.
    destruct (String.prefix needle EmptyString) eqn:E; [|done].
    apply prefix_split in E as [b Hb]. by destruct (Habs EmptyString b).
  - rewrite indexOf_unfold.
    destruct (String.prefix needle (String c str)) eqn:E.
    + apply prefix_split in E as [b Hb]. by destruct (Habs EmptyString b).
    + rewrite IH; [done|]. intros pre post ->.
      by destruct (Habs (String c pre) post).
Qed.

Lemma substring_all (s : string) : String.substring 0 (String.length s) s = s.
Proof. induction s as [|c s IH]; simpl; [done | by rewrite IH]. Qed.

Lemma substring_head (pre rest : string) :
  String.substring 0 (String.length pre) (pre +:+ rest) = pre.
Proof.
  induction pre as [|c pre IH]; [by destruct rest|].
  rewrite append_cons. simpl. by rewrite IH.
Qed.

Lemma substringFrom_tail (pre rest : string) :
  JS.substringFrom (String.length pre) (pre +:+ rest) = rest.
Proof.
  unfold JS.substringFrom. rewrite length_append.
  replace (String.length pre + String.length rest - String.length pre)
    with (String.length rest) by lia.
  induction pre as [|c pre IH]; [apply substring_all|].
  rewrite append_cons. simpl. apply IH.
Qed.

Lemma replace_first (needle str pre post replacement : string) :
  FirstOccurrence needle str pre post →
  JS.replace str needle replacement
  = pre +:+ JS.GetSubstitution needle str (String.length pre) replacement
        +:+ post.
Proof.
  intros H. unfold JS.replace. rewrite (indexOf_first _ _ _ _ H).
  destruct H as [-> _].
  rewrite substring_head.
  rewrite <- (append_assoc pre needle post) at 2.
  by rewrite <- length_append, substringFrom_tail.
Qed.

Lemma replace_absent (needle str replacement : string) :
  Absent needle str → JS.replace str needle replacement = str.
Proof. intros H. unfold JS.replace. by rewrite indexOf_absent. Qed.

(** A replacement text without [$] is inserted as it is. *)
Lemma GetSubstitution_plain (matched str template : string) (position : nat) :
  "$"%char ∉ list_ascii_of_string template →
  JS.GetSubstitution matched str position template = template.
Proof.
  induction template as [|c rest IH]; intros H; [done|].
  simpl in *. apply not_elem_of_cons in H as [Hc Hrest].
  destruct (Ascii.eqb_spec c "$") as [->|_]; [done|].
  by rewrite IH.
Qed.

(** ** The resolver *)

Lemma probes_tests (paths : list string) (rest : list Effect) :
  probes (map ExistsSync paths ++ rest) = paths ++ probes rest.
Proof. induction paths as [|p paths IH]; simpl; [done | by rewrite <- IH]. Qed.

Lemma notifications_tests (paths : list string) (rest : list Effect) :
  notifications (map ExistsSync paths ++ rest) = notifications rest.
Proof. induction paths as [|p paths IH]; simpl; done. Qed.

Lemma truthy_nonempty (s : string) : s ≠ EmptyString → JS.truthy s = true.
Proof. by destruct s. Qed.

Section ResolverFacts.
Variable resolve : string → string.
Variable existsSync : string → bool.
Variables green cyan : string → string.

Local Abbreviation missing := (Missing resolve existsSync).
Local Abbreviation present := (Present resolve existsSync).

Lemma forOf_miss (dest : string) (files : list string) (config : Config) :
  Forall (missing dest) files →
  forOf resolve existsSync dest files config
  = (Returned config, map ExistsSync (map (candidatePath resolve dest) files)).
Proof.
  induction 1 as [|f files Hf _ IH]; [done|].
  simpl. unfold Missing, candidatePath in Hf. rewrite Hf, IH. done.
Qed.

Lemma forOf_hit (dest : string) (before after : list string) (f : string)
      (config : Config) :
  Forall (missing dest) before →
  present dest f →
  forOf resolve existsSync dest (before ++ f :: after) config
  = (Returned (mkConfig (Some f) (Some (candidatePath resolve dest f))),
     map ExistsSync (map (candidatePath resolve dest) (before ++ [f]))).
Proof.
  intros Hbefore Hf. induction Hbefore as [|b before Hb _ IH].
  - simpl. unfold Present, candidatePath in Hf. by rewrite Hf.
  - simpl. unfold Missing, candidatePath in Hb. rewrite Hb.
    simpl in IH. by rewrite IH.
Qed.

(** Either every candidate is missing or there is a first present one. *)
Lemma first_present (dest : string) (files : list string) :
  Forall (missing dest) files
  ∨ ∃ before f after,
      files = before ++ f :: after
      ∧ Forall (missing dest) before ∧ present dest f.
Proof.
  induction files as [|f files IH]; [by left|].
  destruct (existsSync (candidatePath resolve dest f)) eqn:Hf.
  - right. exists [], f, files. by repeat split.
  - destruct IH as [Hall|(before & g & after & -> & Hbefore & Hg)].
    + left. by constructor.
    + right. exists (f :: before), g, after. repeat split; [|done].
      by constructor.
Qed.

Lemma present_not_missing (dest : string) (before after : list string)
      (f : string) :
  present dest f → ¬ Forall (missing dest) (before ++ f :: after).
Proof.
  intros Hf Hall. apply Forall_app in Hall as [_ Hall].
  apply Forall_cons in Hall as [Hmiss _].
  unfold Present, Missing in *. congruence.
Qed.

Section Call.
Variable NODE_ENV : option string.
Variable dest : string.
Variable ignoreEnvSpecificWarn : option bool.
Variable pattern : option (list EnvPatternPart).

Local Abbreviation files :=
  (filesToTry NODE_ENV (default defaultArgumentPattern pattern)).
Local Abbreviation run :=
  (resolveEnvPath resolve existsSync green cyan NODE_ENV dest
     ignoreEnvSpecificWarn pattern).

Lemma resolveEnvPath_miss :
  Forall (missing dest) files →
  run = (Thrown (failureMessage files),
         map ExistsSync (map (candidatePath resolve dest) files)).
Proof.
  intros H. unfold resolveEnvPath.
  rewrite (forOf_miss _ _ _ H).
  unfold bind, throw. cbn. by rewrite app_nil_r.
Qed.

Lemma resolveEnvPath_hit (before after : list string) (f : string) :
  files = before ++ f :: after →
  Forall (missing dest) before →
  present dest f →
  run =
  if JS.truthy (candidatePath resolve dest f) then
    (Returned (candidatePath resolve dest f),
     map ExistsSync (map (candidatePath resolve dest) (before ++ [f]))
       ++ [notice green cyan (default false ignoreEnvSpecificWarn) f])
  else
    (Thrown (failureMessage files),
     map ExistsSync (map (candidatePath resolve dest) (before ++ [f]))).
Proof.
  intros Hfiles Hbefore Hf. unfold resolveEnvPath.
  rewrite Hfiles at 1. rewrite (forOf_hit _ _ _ _ _ Hbefore Hf).
  unfold bind at 1. cbn [filepath resolvedBy JS.truthyNullable].
  destruct (JS.truthy (candidatePath resolve dest f));
    [|unfold bind, throw; cbn; by rewrite app_nil_r].
  unfold notify, notice. cbn [default from_option negb].
  case_bool_decide as Heq.
  - injection Heq as ->. rewrite bool_decide_true by done.
    by destruct (default false ignoreEnvSpecificWarn).
  - rewrite bool_decide_false by congruence. done.
Qed.
End Call.
End ResolverFacts.

(** ** The normaliser *)

Lemma processed_literal (env : string) (part : EnvPatternPart) :
  type part = filename → processed env part = value part.
Proof. intros H. unfold processed. by rewrite H. Qed.

Lemma processed_absent (env : string) (part : EnvPatternPart) :
  type part = node_env → Absent "$1" (value part) →
  processed env part = value part.
Proof. intros H Habs. unfold processed. rewrite H. by apply replace_absent. Qed.

(** An environment name without [$] replaces the placeholder verbatim. *)
Lemma processed_verbatim (env : string) (part : EnvPatternPart)
      (pre post : string) :
  type part = node_env →
  FirstOccurrence "$1" (value part) pre post →
  "$"%char ∉ list_ascii_of_string env →
  processed env part = pre +:+ env +:+ post.
Proof.
  intros H Hfirst Henv. unfold processed. rewrite H.
  rewrite (replace_first _ _ _ _ _ Hfirst).
  by rewrite GetSubstitution_plain.
Qed.

Lemma firstOccurrence_here (needle post : string) :
  FirstOccurrence needle (needle +:+ post) EmptyString post.
Proof. split; [done|]. intros pre' post' _. simpl. lia. Qed.

Lemma firstOccurrence_later (needle str pre post : string) (c : ascii) :
  String.prefix needle (String c str) = false →
  FirstOccurrence needle str pre post →
  FirstOccurrence needle (String c str) (String c pre) post.
Proof.
  intros Hpre [-> Hmin]. split; [done|].
  intros pre' post' H. destruct pre' as [|c' pre'].
  - rewrite append_empty_l in H. rewrite H, prefix_append in Hpre. done.
  - rewrite append_cons in H. injection H as -> H.
    specialize (Hmin _ _ H). simpl. lia.
Qed.

(** C7: the normaliser on the part [{ value: '.$1', type: 'node_env' }] with
    the environment name [$&].  The placeholder is there, but the result is
    not the value with the placeholder replaced by the environment name:
    [String.prototype.replace] reads [$&] in its second argument as "the
    matched text" and puts the placeholder back. *)
Theorem processed_expands_replacement_patterns :
  let part := mkPart ".$1" node_env None in
  FirstOccurrence "$1" (value part) "." EmptyString
  ∧ processed (activeEnv (Some "$&")) part = ".$1"
  ∧ processed (activeEnv (Some "$&")) part ≠ "." +:+ "$&" +:+ EmptyString
  ∧ generatePatternCombinations (Some "$&") defaultArgumentPattern
    = [".env.$1"; ".env"].
Proof.
  repeat split; try done.
  intros pre' post' H. destruct pre' as [|c pre']; [done|]. simpl. lia.
Qed.

(** C8: when [NODE_ENV] is unset the active environment name is
    ["development"], and that text takes the place of the placeholder (the
    first [$1]) of every [node_env] part. *)
Theorem processed_unset_env_development (part : EnvPatternPart)
        (pre post : string) :
  type part = node_env →
  FirstOccurrence "$1" (value part) pre post →
  activeEnv None = "development"
  ∧ processed (activeEnv None) part = pre +:+ "development" +:+ post.
Proof.
  intros H Hfirst. split; [done|].
  apply processed_verbatim; [done..|].
  change (activeEnv None) with "development". simpl.
  repeat (apply not_elem_of_cons; split; [done|]). apply not_elem_of_nil.
Qed.

Lemma processed_unset_env_development_witness :
  processed (activeEnv None) (mkPart ".$1.local" node_env (Some true))
  = ".development.local".
Proof.
  apply (processed_unset_env_development
           (mkPart ".$1.local" node_env (Some true)) "." ".local");
    [reflexivity|].
  apply firstOccurrence_later; [reflexivity|].
  exact (firstOccurrence_here "$1" ".local").
Defined.

(** C10: an empty [NODE_ENV] is treated like an unset one by the generator,
    by [processPattern] and by the resolver; the active environment name is
    never the empty string. *)
Theorem empty_NODE_ENV_same_as_unset
        (resolve : string → string) (existsSync : string → bool)
        (green cyan : string → string) (dest : string)
        (ignoreEnvSpecificWarn : option bool)
        (pattern : option (list EnvPatternPart))
        (parts : list EnvPatternPart) :
  activeEnv (Some EmptyString) = "development"
  ∧ generatePatternCombinations (Some EmptyString) parts
    = generatePatternCombinations None parts
  ∧ processPattern (Some EmptyString) parts = processPattern None parts
  ∧ resolveEnvPath resolve existsSync green cyan (Some EmptyString) dest
      ignoreEnvSpecificWarn pattern
    = resolveEnvPath resolve existsSync green cyan None dest
        ignoreEnvSpecificWarn pattern
  ∧ ∀ NODE_ENV, activeEnv NODE_ENV ≠ EmptyString.
Proof.
  repeat split; try done.
  intros [[|c s]|]; done.
Qed.

(** ** The combination generator *)

(** Scenario 4: four candidates, then the fallback. *)
Example scenario4_candidates :
  filesToTry (Some "test") scenario4
  = [".env.test.local"; ".env.local"; ".env.test"; ".env"; ".env"].
Proof. reflexivity. Qed.

(** C1: the generator returns the list of the reference algorithm of section
    4.2, and its order is the order in which the clones were made: position
    [p] holds the combination whose left-out optional parts are the set bits
    of [p], the first optional part being the least significant bit.  So the
    candidate leaving out only the optional part at pattern index [i] sits at
    position [2 ^ r], with [r] the number of optional parts before [i]: one
    that leaves out an earlier part comes before one that leaves out a later
    part. *)
Theorem generatePatternCombinations_matches_reference
        (NODE_ENV : option string) (pattern : list EnvPatternPart) :
  let contribution := processed (activeEnv NODE_ENV) in
  let candidates := generatePatternCombinations NODE_ENV pattern in
  candidates = Reference.combinations contribution pattern
  ∧ candidates
    = map (Reference.combinationAt contribution pattern)
          (seq 0 (2 ^ optionalCount pattern))
  ∧ ∀ (i : nat) (part : EnvPatternPart),
      pattern !! i = Some part →
      isOptional part = true →
      candidates !! (2 ^ optionalCount (take i pattern))
      = Some (Reference.combinationWithout contribution (Nat.eqb i) pattern 0).
Proof.
  intros contribution candidates. unfold candidates.
  rewrite generate_reference. fold contribution.
  split; [done|]. split; [apply combinations_positions|].
  intros i part Hi Hopt.
  rewrite combinations_lookup.
  - f_equal. apply (combinationAt_single contribution pattern i 0 part Hi Hopt).
  - apply Nat.pow_lt_mono_r; [lia|].
    rewrite <- (take_drop i pattern) at 2.
    rewrite (drop_S _ _ _ Hi). unfold optionalCount.
    rewrite List.filter_app, length_app. simpl. rewrite Hopt. simpl. lia.
Qed.

Lemma generatePatternCombinations_matches_reference_witness :
  generatePatternCombinations (Some "test") scenario4 !! 1 = Some ".env.local"
  ∧ generatePatternCombinations (Some "test") scenario4 !! 2
    = Some ".env.test".
Proof.
  destruct (generatePatternCombinations_matches_reference
              (Some "test") scenario4) as (_ & _ & H).
  split.
  - exact (H 1 (mkPart ".$1" node_env (Some true)) eq_refl eq_refl).
  - exact (H 2 (mkPart ".local" filename (Some true)) eq_refl eq_refl).
Defined.

(** C1, as worded: on the pattern of scenario 4 with environment name
    ["test"] the candidate without the later optional part ([.env.test]) does
    not come before the one without the earlier optional part
    ([.env.local]). *)
Lemma later_exclusions_not_first :
  ¬ LaterExclusionsFirst (Some "test") scenario4.
Proof.
  intros H.
  specialize (H 1 2 (mkPart ".$1" node_env (Some true))
                (mkPart ".local" filename (Some true)) 1 2).
  assert (2 < 1) as Habs by (apply H; [lia | reflexivity ..]).
  lia.
Qed.

(** C4: a pattern with [k] optional parts yields exactly [2 ^ k] candidates;
    equal candidates are all kept, as for an optional part with an empty
    value. *)
Theorem generatePatternCombinations_length
        (NODE_ENV : option string) (pattern : list EnvPatternPart) :
  length (generatePatternCombinations NODE_ENV pattern)
  = 2 ^ optionalCount pattern
  ∧ generatePatternCombinations NODE_ENV
      [ mkPart ".env" filename None; mkPart EmptyString filename (Some true) ]
    = [".env"; ".env"].
Proof.
  split; [|done].
  rewrite generate_reference. apply combinations_length.
Qed.

(** C9: the first candidate is the concatenation of the contributions of all
    parts, which is what [processPattern] returns; without optional parts it
    is the only candidate; the empty pattern yields the empty string alone. *)
Theorem generatePatternCombinations_head
        (NODE_ENV : option string) (pattern : list EnvPatternPart) :
  let all := JS.join EmptyString (map (processed (activeEnv NODE_ENV)) pattern) in
  head (generatePatternCombinations NODE_ENV pattern) = Some all
  ∧ processPattern NODE_ENV pattern = all
  ∧ (optionalCount pattern = 0 →
     generatePatternCombinations NODE_ENV pattern = [all])
  ∧ generatePatternCombinations NODE_ENV [] = [EmptyString].
Proof.
  intros all.
  assert (Hhead : head (generatePatternCombinations NODE_ENV pattern) = Some all).
  { rewrite head_lookup, generate_reference.
    rewrite combinations_lookup
      by (pose proof (Nat.pow_nonzero 2 (optionalCount pattern)); lia).
    by rewrite combinationAt_zero. }
  split; [done|]. split; [done|]. split; [|done].
  intros Hk.
  assert (Hlen : length (generatePatternCombinations NODE_ENV pattern)
                 = 2 ^ optionalCount pattern)
    by (rewrite generate_reference; apply combinations_length).
  rewrite Hk in Hlen.
  destruct (generatePatternCombinations NODE_ENV pattern) as [|x [|y l]];
    simpl in *; try lia.
  by injection Hhead as ->.
Qed.

Lemma generatePatternCombinations_head_witness :
  generatePatternCombinations (Some "production")
    [ mkPart ".env" filename None; mkPart ".$1" node_env (Some false) ]
  = [".env.production"].
Proof.
  apply (generatePatternCombinations_head (Some "production")
           [ mkPart ".env" filename None; mkPart ".$1" node_env (Some false) ]).
  reflexivity.
Defined.

(** C6: the fallback pattern always expands to [[".env"]], and the candidate
    list of the resolver is the expansion of the custom pattern followed by
    it. *)
Theorem filesToTry_custom_then_fallback
        (NODE_ENV : option string) (pattern : list EnvPatternPart) :
  generatePatternCombinations NODE_ENV defaultPattern = [".env"]
  ∧ filesToTry NODE_ENV pattern
    = generatePatternCombinations NODE_ENV pattern ++ [".env"].
Proof. split; reflexivity. Qed.

(** ** The resolver *)

Lemma sample_resolve_nonempty (path : string) :
  Sample.resolve path ≠ EmptyString.
Proof.
  unfold Sample.resolve. destruct (String.prefix "/" path) eqn:E; [|done].
  by destruct path.
Qed.

Lemma probes_notice (green cyan : string → string) (ignore : bool)
      (candidate : string) :
  probes [notice green cyan ignore candidate] = [].
Proof. unfold notice. by repeat case_match. Qed.

Section ResolverClaims.
Variable resolve : string → string.
Variable existsSync : string → bool.
Variables green cyan : string → string.
Variable NODE_ENV : option string.
Variable dest : string.
Variable ignoreEnvSpecificWarn : option bool.
Variable pattern : option (list EnvPatternPart).

Local Abbreviation files :=
  (filesToTry NODE_ENV (default defaultArgumentPattern pattern)).
Local Abbreviation run :=
  (resolveEnvPath resolve existsSync green cyan NODE_ENV dest
     ignoreEnvSpecificWarn pattern).

(** C2: the candidates are tested in list order, each as
    [resolve (dest + "/" + candidate)]; the tests stop at the first path
    that exists, and that path is returned.  [path.resolve] returns an
    absolute path, which is never the empty string. *)
Theorem resolveEnvPath_returns_first_existing
        (before after : list string) (f : string) :
  (∀ path, resolve path ≠ EmptyString) →
  filesToTry NODE_ENV (default defaultArgumentPattern pattern)
  = before ++ f :: after →
  Forall (λ c, existsSync (resolve (dest +:+ "/" +:+ c)) = false) before →
  existsSync (resolve (dest +:+ "/" +:+ f)) = true →
  completion
    (resolveEnvPath resolve existsSync green cyan NODE_ENV dest
       ignoreEnvSpecificWarn pattern)
  = Returned (resolve (dest +:+ "/" +:+ f))
  ∧ probes
      (effects
         (resolveEnvPath resolve existsSync green cyan NODE_ENV dest
            ignoreEnvSpecificWarn pattern))
    = map (λ c, resolve (dest +:+ "/" +:+ c)) (before ++ [f]).
Proof.
  intros Hresolve Hfiles Hbefore Hf.
  rewrite (resolveEnvPath_hit resolve existsSync green cyan NODE_ENV dest
             ignoreEnvSpecificWarn pattern before after f Hfiles Hbefore Hf).
  rewrite truthy_nonempty by apply Hresolve.
  split; [done|]. unfold effects. cbn [snd].
  by rewrite probes_tests, probes_notice, app_nil_r.
Qed.

(** C3: the call throws exactly when no candidate of the list (expansions
    of the custom pattern, then [.env]) exists; every candidate was then
    tested, in order, and the message lists them all in that order. *)
Theorem resolveEnvPath_throws_iff_nothing_exists :
  (∀ path, resolve path ≠ EmptyString) →
  ((∃ message,
       completion
         (resolveEnvPath resolve existsSync green cyan NODE_ENV dest
            ignoreEnvSpecificWarn pattern) = Thrown message)
   ↔ Forall (λ c, existsSync (resolve (dest +:+ "/" +:+ c)) = false)
            (generatePatternCombinations NODE_ENV
               (default defaultArgumentPattern pattern) ++ [".env"]))
  ∧ ∀ message,
      completion
        (resolveEnvPath resolve existsSync green cyan NODE_ENV dest
           ignoreEnvSpecificWarn pattern) = Thrown message →
      message
      = "Couldn't load environment file from any sources:" +:+ LF
          +:+ "Tried: "
          +:+ JS.join (LF +:+ "  - ")
                (generatePatternCombinations NODE_ENV
                   (default defaultArgumentPattern pattern) ++ [".env"])
      ∧ probes
          (effects
             (resolveEnvPath resolve existsSync green cyan NODE_ENV dest
                ignoreEnvSpecificWarn pattern))
        = map (λ c, resolve (dest +:+ "/" +:+ c))
              (generatePatternCombinations NODE_ENV
                 (default defaultArgumentPattern pattern) ++ [".env"]).
Proof.
  intros Hresolve.
  change (generatePatternCombinations NODE_ENV
            (default defaultArgumentPattern pattern) ++ [".env"])
    with files.
  destruct (first_present resolve existsSync dest files)
    as [Hall|(before & f & after & Hfiles & Hbefore & Hf)].
  - rewrite (resolveEnvPath_miss resolve existsSync green cyan NODE_ENV dest
               ignoreEnvSpecificWarn pattern Hall).
    fold files. split.
    + split; [done|]. intros _. by eexists.
    + intros message [= <-]. split; [done|].
      unfold effects. cbn [snd].
      rewrite <- (app_nil_r (map ExistsSync _)), probes_tests. cbn.
      by rewrite app_nil_r.
  - rewrite (resolveEnvPath_hit resolve existsSync green cyan NODE_ENV dest
               ignoreEnvSpecificWarn pattern before after f Hfiles Hbefore Hf).
    rewrite truthy_nonempty by apply Hresolve.
    split.
    + split; [by intros [message ?]|]. intros Hall. exfalso.
      rewrite Hfiles in Hall.
      by apply (present_not_missing resolve existsSync dest before after f).
    + by intros message ?.
Qed.

(** C5: a call that returns has emitted exactly one notification, chosen
    by the matched candidate: for [.env] a warning, or an info message when
    [ignoreEnvSpecificWarn] is set; for any other candidate an info message
    with its name. *)
Theorem resolveEnvPath_notifies_once (path : string) :
  completion
    (resolveEnvPath resolve existsSync green cyan NODE_ENV dest
       ignoreEnvSpecificWarn pattern) = Returned path →
  ∃ before f after,
    filesToTry NODE_ENV (default defaultArgumentPattern pattern)
    = before ++ f :: after
    ∧ Forall (λ c, existsSync (resolve (dest +:+ "/" +:+ c)) = false) before
    ∧ existsSync (resolve (dest +:+ "/" +:+ f)) = true
    ∧ path = resolve (dest +:+ "/" +:+ f)
    ∧ notifications
        (effects
           (resolveEnvPath resolve existsSync green cyan NODE_ENV dest
              ignoreEnvSpecificWarn pattern))
      = [ if bool_decide (f = ".env") then
            if default false ignoreEnvSpecificWarn
            then LoggerLog "Using .env file"
            else LoggerWarn "Using fallback .env file"
          else LoggerLog (green ("Using " +:+ cyan f +:+ " file")) ].
Proof.
  destruct (first_present resolve existsSync dest files)
    as [Hall|(before & f & after & Hfiles & Hbefore & Hf)].
  - rewrite (resolveEnvPath_miss resolve existsSync green cyan NODE_ENV dest
               ignoreEnvSpecificWarn pattern Hall). done.
  - rewrite (resolveEnvPath_hit resolve existsSync green cyan NODE_ENV dest
               ignoreEnvSpecificWarn pattern before after f Hfiles Hbefore Hf).
    destruct (JS.truthy (candidatePath resolve dest f)); [|done].
    intros [= <-]. exists before, f, after.
    repeat (split; [done|]).
    unfold effects. cbn [snd]. rewrite notifications_tests.
    unfold notice. by repeat case_match.
Qed.
End ResolverClaims.

(** Scenario 2: the specific file wins, with an info notification. *)
Example scenario2_production :
  resolveEnvPath Sample.resolve Sample.production Sample.plain Sample.plain
    (Some "production") "/app" None None
  = (Returned "/app/.env.production",
     [ ExistsSync "/app/.env.production";
       LoggerLog "Using .env.production file" ]).
Proof. reflexivity. Qed.

(** Scenarios 1 and 5: only [.env] exists; the flag turns the warning into
    an info notification. *)
Example scenario1_fallback_warning :
  resolveEnvPath Sample.resolve Sample.onlyDotEnv Sample.plain Sample.plain
    None "/app" None None
  = (Returned "/app/.env",
     [ ExistsSync "/app/.env.development"; ExistsSync "/app/.env";
       LoggerWarn "Using fallback .env file" ]).
Proof. reflexivity. Qed.

Example scenario5_fallback_info :
  resolveEnvPath Sample.resolve Sample.onlyDotEnv Sample.plain Sample.plain
    None "/app" (Some true) None
  = (Returned "/app/.env",
     [ ExistsSync "/app/.env.development"; ExistsSync "/app/.env";
       LoggerLog "Using .env file" ]).
Proof. reflexivity. Qed.

Lemma resolveEnvPath_returns_first_existing_witness :
  completion
    (resolveEnvPath Sample.resolve Sample.onlyDotEnv Sample.plain Sample.plain
       None "/app" None None) = Returned "/app/.env"
  ∧ probes
      (effects
         (resolveEnvPath Sample.resolve Sample.onlyDotEnv Sample.plain
            Sample.plain None "/app" None None))
    = ["/app/.env.development"; "/app/.env"].
Proof.
  apply (resolveEnvPath_returns_first_existing
           Sample.resolve Sample.onlyDotEnv Sample.plain Sample.plain
           None "/app" None None [".env.development"] [".env"] ".env").
  - apply sample_resolve_nonempty.
  - reflexivity.
  - repeat constructor.
  - reflexivity.
Defined.

Lemma resolveEnvPath_throws_iff_nothing_exists_witness :
  ∃ message,
    completion
      (resolveEnvPath Sample.resolve Sample.nothing Sample.plain Sample.plain
         (Some "test") "/app" None (Some scenario4)) = Thrown message.
Proof.
  apply (resolveEnvPath_throws_iff_nothing_exists
           Sample.resolve Sample.nothing Sample.plain Sample.plain
           (Some "test") "/app" None (Some scenario4)
           sample_resolve_nonempty).
  repeat constructor.
Defined.

Lemma resolveEnvPath_notifies_once_witness :
  ∃ before f after,
    filesToTry None defaultArgumentPattern = before ++ f :: after
    ∧ Forall (λ c, Sample.onlyDotEnv (Sample.resolve ("/app" +:+ "/" +:+ c))
                   = false) before
    ∧ Sample.onlyDotEnv (Sample.resolve ("/app" +:+ "/" +:+ f)) = true
    ∧ "/app/.env" = Sample.resolve ("/app" +:+ "/" +:+ f)
    ∧ notifications
        (effects
           (resolveEnvPath Sample.resolve Sample.onlyDotEnv Sample.plain
              Sample.plain None "/app" (Some true) None))
      = [ if bool_decide (f = ".env") then
            if default false (Some true)
            then LoggerLog "Using .env file"
            else LoggerWarn "Using fallback .env file"
          else LoggerLog (Sample.plain ("Using " +:+ Sample.plain f +:+ " file")) ].
Proof.
  apply (resolveEnvPath_notifies_once
           Sample.resolve Sample.onlyDotEnv Sample.plain Sample.plain
           None "/app" (Some true) None "/app/.env").
  reflexivity.
Defined.

(** ** Further properties of the combination generator *)

Lemma positionOf_lt (excluded : nat → bool) (pattern : list EnvPatternPart)
      (index : nat) :
  positionOf excluded pattern index < 2 ^ optionalCount pattern.
Proof.
  revert index. induction pattern as [|part rest IH]; intros index.
  - simpl. lia.
  - specialize (IH (S index)). unfold optionalCount in *. simpl.
    destruct (isOptional part); simpl; [|done].
    destruct (excluded index); lia.
Qed.

Section SubsetFacts.
Variable contribution : EnvPatternPart → string.

Lemma combinationAt_positionOf (excluded : nat → bool)
      (pattern : list EnvPatternPart) (index : nat) :
  OnlyOptional excluded pattern index →
  Reference.combinationAt contribution pattern
    (positionOf excluded pattern index)
  = Reference.combinationWithout contribution excluded pattern index.
Proof.
  revert index. induction pattern as [|part rest IH]; intros index H; [done|].
  assert (Hrest : OnlyOptional excluded rest (S index)).
  { intros i p Hi He. apply (H (S i) p Hi).
    by replace (index + S i) with (S index + i) by lia. }
  specialize (IH (S index) Hrest).
  cbn [Reference.combinationAt Reference.combinationWithout positionOf].
  destruct (isOptional part) eqn:Hopt.
  - destruct (excluded index).
    + rewrite Nat.even_add_mul_2. change (Nat.even 1) with false. cbv iota.
      rewrite (Nat.mul_comm 2), Nat.div_add by lia.
      by rewrite (Nat.div_small 1 2), Nat.add_0_l, IH by lia.
    + rewrite Nat.add_0_l, Nat.even_mul. change (Nat.even 2) with true.
      cbn [orb]. rewrite (Nat.mul_comm 2), Nat.div_mul by lia. by rewrite IH.
  - destruct (excluded index) eqn:He; [|by rewrite IH].
    specialize (H 0 part eq_refl). rewrite Nat.add_0_r in H.
    specialize (H He). congruence.
Qed.

Lemma combinationWithout_ext (e1 e2 : nat → bool)
      (pattern : list EnvPatternPart) (index : nat) :
  (∀ j, index ≤ j → e1 j = e2 j) →
  Reference.combinationWithout contribution e1 pattern index
  = Reference.combinationWithout contribution e2 pattern index.
Proof.
  revert index. induction pattern as [|part rest IH]; intros index H; [done|].
  simpl. rewrite (H index) by lia. rewrite (IH (S index)); [done|].
  intros j Hj. apply H. lia.
Qed.

Lemma combinationWithout_excludedAt (pattern : list EnvPatternPart)
      (p index : nat) :
  Reference.combinationWithout contribution (excludedAt pattern p index)
    pattern index
  = Reference.combinationAt contribution pattern p.
Proof.
  revert p index. induction pattern as [|part rest IH]; intros p index; [done|].
  simpl. rewrite Nat.eqb_refl.
  destruct (isOptional part).
  - rewrite <- Nat.negb_even. rewrite <- (IH (p / 2) (S index)).
    rewrite (combinationWithout_ext _ (excludedAt rest (p / 2) (S index))).
    + by destruct (Nat.even p).
    + intros j Hj. by rewrite (proj2 (Nat.eqb_neq j index)) by lia.
  - rewrite <- (IH p (S index)).
    rewrite (combinationWithout_ext _ (excludedAt rest p (S index))); [done|].
    intros j Hj. by rewrite (proj2 (Nat.eqb_neq j index)) by lia.
Qed.

Lemma excludedAt_onlyOptional (pattern : list EnvPatternPart) (p index : nat) :
  OnlyOptional (excludedAt pattern p index) pattern index.
Proof.
  revert p index. induction pattern as [|part rest IH]; intros p index i q Hi He.
  - done.
  - destruct i as [|i]; simpl in *.
    + injection Hi as ->. rewrite Nat.add_0_r, Nat.eqb_refl in He.
      by destruct (isOptional q).
    + rewrite (proj2 (Nat.eqb_neq (index + S i) index)) in He by lia.
      replace (index + S i) with (S index + i) in He by lia.
      destruct (isOptional part); by eapply IH.
Qed.

(** The last position holds the combination of the mandatory parts. *)
Lemma combinationAt_last (pattern : list EnvPatternPart) :
  Reference.combinationAt contribution pattern (2 ^ optionalCount pattern - 1)
  = JS.join EmptyString (map contribution (mandatoryParts pattern)).
Proof.
  induction pattern as [|part rest IH]; [done|].
  unfold optionalCount, mandatoryParts in *. simpl.
  destruct (isOptional part); simpl.
  - pose proof (Nat.pow_nonzero 2 (length (List.filter isOptional rest))
                  ltac:(lia)) as Hpos.
    set (m := 2 ^ length (List.filter isOptional rest)) in *. clearbody m.
    assert (m + (m + 0) - 1 = 1 + 2 * (m - 1)) as -> by lia.
    rewrite Nat.even_add_mul_2. change (Nat.even 1) with false. cbv iota.
    rewrite (Nat.mul_comm 2), Nat.div_add by lia.
    rewrite (Nat.div_small 1 2), Nat.add_0_l by lia.
    by rewrite append_empty_l, IH.
  - by rewrite join_cons, IH.
Qed.

Lemma combinationAt_length (pattern : list EnvPatternPart) (p : nat) :
  String.length (Reference.combinationAt contribution pattern p)
  ≤ String.length (JS.join EmptyString (map contribution pattern)).
Proof.
  revert p. induction pattern as [|part rest IH]; intros p; [done|].
  simpl. rewrite join_cons.
  destruct (isOptional part).
  - specialize (IH (p / 2)).
    destruct (Nat.even p); rewrite !length_append; simpl; lia.
  - specialize (IH p). rewrite !length_append. lia.
Qed.

Lemma map_append_flat_map (c : string) (prefixes candidates : list string) :
  map (λ s, s +:+ c)
      (flat_map (λ b, map (λ a, a +:+ b) prefixes) candidates)
  = flat_map (λ b, map (λ a, a +:+ b) prefixes)
             (map (λ s, s +:+ c) candidates).
Proof.
  induction candidates as [|b candidates IH]; [done|].
  simpl. rewrite map_app, IH. f_equal.
  rewrite map_map. apply map_ext. intros a. apply append_assoc.
Qed.

(** Growing the list from [prefixes] is growing it from the empty prefix
    and putting every prefix in front of every result. *)
Lemma combinations_from_prefixes (pattern : list EnvPatternPart)
      (prefixes : list string) :
  foldl (Reference.step contribution) prefixes pattern
  = flat_map (λ b, map (λ a, a +:+ b) prefixes)
             (Reference.combinations contribution pattern).
Proof.
  unfold Reference.combinations.
  induction pattern as [|part rest IH] using rev_ind.
  - simpl. rewrite app_nil_r. symmetry. rewrite <- (map_id prefixes) at 2.
    apply map_ext. intros a. apply append_empty_r.
  - rewrite !foldl_snoc, !step_unfold, IH.
    rewrite flat_map_app, map_append_flat_map.
    by destruct (isOptional part).
Qed.

End SubsetFacts.

Lemma join_app (a b : list string) :
  JS.join EmptyString (a ++ b)
  = JS.join EmptyString a +:+ JS.join EmptyString b.
Proof.
  induction a as [|s a IH]; [done|].
  rewrite <- app_comm_cons, !join_cons, IH. by rewrite append_assoc.
Qed.

(** A pattern without optional parts has the join of its contributions as
    its only candidate. *)
Lemma generate_mandatory (NODE_ENV : option string)
      (pattern : list EnvPatternPart) :
  optionalCount pattern = 0 →
  generatePatternCombinations NODE_ENV pattern
  = [processPattern NODE_ENV pattern].
Proof.
  intros Hk. rewrite generate_reference, combinations_positions, Hk. simpl.
  by rewrite combinationAt_zero.
Qed.

(** X1: the candidates are exactly the combinations that leave out a set of
    optional parts: every candidate is one, and each of them is in the
    list. *)
Theorem generatePatternCombinations_subsets
        (NODE_ENV : option string) (pattern : list EnvPatternPart)
        (candidate : string) :
  candidate ∈ generatePatternCombinations NODE_ENV pattern
  ↔ ∃ excluded : nat → bool,
      (∀ (i : nat) (part : EnvPatternPart),
          pattern !! i = Some part → excluded i = true →
          isOptional part = true)
      ∧ candidate
        = Reference.combinationWithout (processed (activeEnv NODE_ENV))
            excluded pattern 0.
Proof.
  rewrite generate_reference. split.
  - intros Hin. apply list_elem_of_lookup in Hin as [p Hp].
    assert (Hlt : p < 2 ^ optionalCount pattern).
    { apply lookup_lt_Some in Hp. by rewrite combinations_length in Hp. }
    rewrite combinations_lookup in Hp by done. injection Hp as <-.
    exists (excludedAt pattern p 0). split.
    + apply (excludedAt_onlyOptional pattern p 0).
    + by rewrite combinationWithout_excludedAt.
  - intros (excluded & Honly & ->).
    apply list_elem_of_lookup. exists (positionOf excluded pattern 0).
    rewrite combinations_lookup by apply positionOf_lt.
    f_equal. by apply combinationAt_positionOf.
Qed.

(** X2: the last candidate is made of the mandatory parts alone. *)
Theorem generatePatternCombinations_last
        (NODE_ENV : option string) (pattern : list EnvPatternPart) :
  last (generatePatternCombinations NODE_ENV pattern)
  = Some (processPattern NODE_ENV (mandatoryParts pattern)).
Proof.
  rewrite last_lookup, generate_reference, combinations_length.
  pose proof (Nat.pow_nonzero 2 (optionalCount pattern) ltac:(lia)).
  replace (pred (2 ^ optionalCount pattern))
    with (2 ^ optionalCount pattern - 1) by lia.
  rewrite combinations_lookup by lia.
  by rewrite combinationAt_last.
Qed.

(** X3: the candidates of a pattern made of two parts in a row are the
    candidates of the first each followed by a candidate of the second,
    grouped by the candidate of the second. *)
Theorem generatePatternCombinations_app
        (NODE_ENV : option string) (first second : list EnvPatternPart) :
  generatePatternCombinations NODE_ENV (first ++ second)
  = flat_map
      (λ b, map (λ a, a +:+ b) (generatePatternCombinations NODE_ENV first))
      (generatePatternCombinations NODE_ENV second).
Proof.
  rewrite !generate_reference.
  unfold Reference.combinations at 1. rewrite foldl_app.
  apply combinations_from_prefixes.
Qed.

(** X4: when a pattern starts with mandatory parts, every candidate starts
    with their joined contributions, followed by a candidate of the rest. *)
Theorem generatePatternCombinations_mandatory_prefix
        (NODE_ENV : option string) (leading rest : list EnvPatternPart) :
  optionalCount leading = 0 →
  generatePatternCombinations NODE_ENV (leading ++ rest)
  = map (λ b, processPattern NODE_ENV leading +:+ b)
        (generatePatternCombinations NODE_ENV rest).
Proof.
  intros Hk.
  rewrite !generate_reference.
  unfold Reference.combinations at 1. rewrite foldl_app.
  rewrite combinations_from_prefixes.
  fold (Reference.combinations (processed (activeEnv NODE_ENV)) leading).
  rewrite <- (generate_reference NODE_ENV leading), generate_mandatory by done.
  induction (Reference.combinations _ rest) as [|b l IH]; [done|].
  cbn [flat_map map app]. by f_equal.
Qed.

Lemma generatePatternCombinations_mandatory_prefix_witness :
  generatePatternCombinations (Some "test")
    ([mkPart ".env" filename None]
       ++ [mkPart ".$1" node_env (Some true);
           mkPart ".local" filename (Some true)])
  = map (λ b, ".env" +:+ b) [".test.local"; ".local"; ".test"; EmptyString].
Proof.
  apply (generatePatternCombinations_mandatory_prefix (Some "test")
           [mkPart ".env" filename None]
           [mkPart ".$1" node_env (Some true);
            mkPart ".local" filename (Some true)]).
  reflexivity.
Defined.

(** X5: no candidate is longer than the first one, the name with all parts
    included. *)
Theorem generatePatternCombinations_length_bound
        (NODE_ENV : option string) (pattern : list EnvPatternPart)
        (candidate : string) :
  candidate ∈ generatePatternCombinations NODE_ENV pattern →
  String.length candidate ≤ String.length (processPattern NODE_ENV pattern).
Proof.
  rewrite generate_reference. intros Hin.
  apply list_elem_of_lookup in Hin as [p Hp].
  assert (Hlt : p < 2 ^ optionalCount pattern).
  { apply lookup_lt_Some in Hp. by rewrite combinations_length in Hp. }
  rewrite combinations_lookup in Hp by done. injection Hp as <-.
  apply combinationAt_length.
Qed.

Lemma generatePatternCombinations_length_bound_witness :
  String.length ".env.local"
  ≤ String.length (processPattern (Some "test") scenario4).
Proof.
  apply (generatePatternCombinations_length_bound (Some "test") scenario4).
  apply list_elem_of_lookup. by exists 1.
Defined.



(** X7: [processPattern] of two patterns in a row is the concatenation of
    its results on each. *)
Theorem processPattern_app
        (NODE_ENV : option string) (first second : list EnvPatternPart) :
  processPattern NODE_ENV (first ++ second)
  = processPattern NODE_ENV first +:+ processPattern NODE_ENV second.
Proof. unfold processPattern. by rewrite map_app, join_app. Qed.

(** X8: in a [node_env] part the text before and after the first
    placeholder is kept as it is, further placeholders included; an
    environment name without [$] is what goes in between. *)
Theorem processed_keeps_surroundings
        (env : string) (part : EnvPatternPart) (pre post : string) :
  type part = node_env →
  FirstOccurrence "$1" (value part) pre post →
  ∃ inserted,
    processed env part = pre +:+ inserted +:+ post
    ∧ ("$"%char ∉ list_ascii_of_string env → inserted = env).
Proof.
  intros Htype Hfirst.
  exists (JS.GetSubstitution "$1" (value part) (String.length pre) env).
  split.
  - unfold processed. rewrite Htype. by apply replace_first.
  - apply GetSubstitution_plain.
Qed.

Lemma processed_keeps_surroundings_witness :
  ∃ inserted,
    processed "staging" (mkPart ".$1.$1" node_env None)
    = "." +:+ inserted +:+ ".$1"
    ∧ ("$"%char ∉ list_ascii_of_string "staging" → inserted = "staging").
Proof.
  apply (processed_keeps_surroundings "staging"
           (mkPart ".$1.$1" node_env None) "." ".$1"); [reflexivity|].
  apply firstOccurrence_later; [reflexivity|].
  exact (firstOccurrence_here "$1" ".$1").
Defined.

(** X9: with the default pattern and an environment name that is not empty
    and has no [$], the candidates are [.env.<name>], then [.env], then the
    fallback [.env] again. *)
Theorem filesToTry_default_pattern (env : string) :
  env ≠ EmptyString →
  "$"%char ∉ list_ascii_of_string env →
  filesToTry (Some env) defaultArgumentPattern
  = [".env." +:+ env; ".env"; ".env"].
Proof.
  intros Hne Hdollar.
  unfold filesToTry, generatePatternCombinations.
  assert (Henv : activeEnv (Some env) = env) by (by destruct env).
  rewrite Henv. cbn [foldl defaultArgumentPattern].
  rewrite !forEachBody_unfold. cbn [isOptional optional].
  assert (Hp : processed env (mkPart ".$1" node_env (Some true))
               = "." +:+ env).
  { unfold processed. cbn [type value].
    rewrite (replace_first "$1" ".$1" "." EmptyString).
    - by rewrite GetSubstitution_plain, append_empty_r.
    - apply firstOccurrence_later; [reflexivity|].
      exact (firstOccurrence_here "$1" EmptyString). }
  rewrite Hp. reflexivity.
Qed.

Lemma filesToTry_default_pattern_witness :
  filesToTry (Some "production") defaultArgumentPattern
  = [".env.production"; ".env"; ".env"].
Proof.
  apply (filesToTry_default_pattern "production"); [discriminate|].
  simpl. repeat (apply not_elem_of_cons; split; [discriminate|]).
  apply not_elem_of_nil.
Defined.

(** ** Further properties of the resolver *)

Lemma notifications_only_tests (paths : list string) :
  notifications (map ExistsSync paths) = [].
Proof. by rewrite <- (app_nil_r (map _ _)), notifications_tests. Qed.

Lemma probes_only_tests (paths : list string) :
  probes (map ExistsSync paths) = paths.
Proof.
  by rewrite <- (app_nil_r (map _ _)), probes_tests, app_nil_r.
Qed.

Lemma filesToTry_length (NODE_ENV : option string)
      (pattern : list EnvPatternPart) :
  length (filesToTry NODE_ENV pattern) = 2 ^ optionalCount pattern + 1.
Proof.
  unfold filesToTry.
  by rewrite length_app, !generate_reference, !combinations_length.
Qed.

Section ResolverExtras.
Variable resolve : string → string.
Variable existsSync : string → bool.
Variables green cyan : string → string.
Variable NODE_ENV : option string.
Variable dest : string.
Variable ignoreEnvSpecificWarn : option bool.
Variable pattern : option (list EnvPatternPart).

Local Abbreviation files :=
  (filesToTry NODE_ENV (default defaultArgumentPattern pattern)).

(** X10: a call that throws has emitted no notification. *)
Theorem resolveEnvPath_silent_failure (message : string) :
  completion
    (resolveEnvPath resolve existsSync green cyan NODE_ENV dest
       ignoreEnvSpecificWarn pattern) = Thrown message →
  notifications
    (effects
       (resolveEnvPath resolve existsSync green cyan NODE_ENV dest
          ignoreEnvSpecificWarn pattern)) = [].
Proof.
  destruct (first_present resolve existsSync dest files)
    as [Hall|(before & f & after & Hfiles & Hbefore & Hf)].
  - rewrite (resolveEnvPath_miss resolve existsSync green cyan NODE_ENV dest
               ignoreEnvSpecificWarn pattern Hall).
    intros _. apply notifications_only_tests.
  - rewrite (resolveEnvPath_hit resolve existsSync green cyan NODE_ENV dest
               ignoreEnvSpecificWarn pattern before after f Hfiles Hbefore Hf).
    destruct (JS.truthy (candidatePath resolve dest f)); [done|].
    intros _. apply notifications_only_tests.
Qed.

(** X11: the existence tests of a call are an initial stretch of the
    candidates' paths, in order, so there are never more than
    [2 ^ k + 1] of them for a pattern with [k] optional parts. *)
Theorem resolveEnvPath_probes_bounded :
  let tested :=
    probes
      (effects
         (resolveEnvPath resolve existsSync green cyan NODE_ENV dest
            ignoreEnvSpecificWarn pattern)) in
  (∃ untested,
      map (λ c, resolve (dest +:+ "/" +:+ c))
          (filesToTry NODE_ENV (default defaultArgumentPattern pattern))
      = tested ++ untested)
  ∧ length tested
    ≤ 2 ^ optionalCount (default defaultArgumentPattern pattern) + 1.
Proof.
  intros tested.
  assert (Hprefix : ∃ untested,
             map (candidatePath resolve dest) files = tested ++ untested).
  { unfold tested.
    destruct (first_present resolve existsSync dest files)
      as [Hall|(before & f & after & Hfiles & Hbefore & Hf)].
    - rewrite (resolveEnvPath_miss resolve existsSync green cyan NODE_ENV dest
                 ignoreEnvSpecificWarn pattern Hall).
      exists []. unfold effects. cbn [snd].
      by rewrite probes_only_tests, app_nil_r.
    - rewrite (resolveEnvPath_hit resolve existsSync green cyan NODE_ENV dest
                 ignoreEnvSpecificWarn pattern before after f Hfiles Hbefore Hf).
      exists (map (candidatePath resolve dest) after).
      rewrite Hfiles.
      destruct (JS.truthy (candidatePath resolve dest f));
        unfold effects; cbn [snd].
      + rewrite probes_tests, probes_notice, app_nil_r.
        by rewrite <- map_app, <- app_assoc.
      + rewrite probes_only_tests.
        by rewrite <- map_app, <- app_assoc. }
  split; [exact Hprefix|].
  destruct Hprefix as [untested Heq].
  apply (f_equal length) in Heq.
  rewrite length_map, filesToTry_length, length_app in Heq. lia.
Qed.

(** X12: neither the flag nor the text styling changes what a call returns
    or throws, or which paths it tests. *)
Theorem resolveEnvPath_flag_only_notifies
        (green' cyan' : string → string)
        (ignoreEnvSpecificWarn' : option bool) :
  completion
    (resolveEnvPath resolve existsSync green cyan NODE_ENV dest
       ignoreEnvSpecificWarn pattern)
  = completion
      (resolveEnvPath resolve existsSync green' cyan' NODE_ENV dest
         ignoreEnvSpecificWarn' pattern)
  ∧ probes
      (effects
         (resolveEnvPath resolve existsSync green cyan NODE_ENV dest
            ignoreEnvSpecificWarn pattern))
    = probes
        (effects
           (resolveEnvPath resolve existsSync green' cyan' NODE_ENV dest
              ignoreEnvSpecificWarn' pattern)).
Proof.
  destruct (first_present resolve existsSync dest files)
    as [Hall|(before & f & after & Hfiles & Hbefore & Hf)].
  - by rewrite !(resolveEnvPath_miss resolve existsSync _ _ NODE_ENV dest
                   _ pattern Hall).
  - rewrite !(resolveEnvPath_hit resolve existsSync _ _ NODE_ENV dest
                _ pattern before after f Hfiles Hbefore Hf).
    destruct (JS.truthy (candidatePath resolve dest f)); [|done].
    split; [done|]. unfold effects. cbn [snd].
    by rewrite !probes_tests, !probes_notice.
Qed.

(** X13: when [.env] exists in the directory the call returns, whatever the
    pattern, and the path it returns exists. *)
Theorem resolveEnvPath_fallback_suffices :
  (∀ path, resolve path ≠ EmptyString) →
  existsSync (resolve (dest +:+ "/" +:+ ".env")) = true →
  ∃ path,
    completion
      (resolveEnvPath resolve existsSync green cyan NODE_ENV dest
         ignoreEnvSpecificWarn pattern) = Returned path
    ∧ existsSync path = true.
Proof.
  intros Hresolve Henv.
  destruct (first_present resolve existsSync dest files)
    as [Hall|(before & f & after & Hfiles & Hbefore & Hf)].
  - exfalso. unfold filesToTry in Hall.
    apply Forall_app in Hall as [_ Hall].
    change (generatePatternCombinations NODE_ENV defaultPattern)
      with [".env"] in Hall.
    apply Forall_cons in Hall as [Hmiss _].
    unfold Missing, candidatePath in Hmiss. congruence.
  - rewrite (resolveEnvPath_hit resolve existsSync green cyan NODE_ENV dest
               ignoreEnvSpecificWarn pattern before after f Hfiles Hbefore Hf).
    rewrite truthy_nonempty by apply Hresolve.
    by exists (candidatePath resolve dest f).
Qed.


(** X15: with the flag set no warning is ever emitted. *)
Theorem resolveEnvPath_flag_suppresses_warning (message : string) :
  LoggerWarn message
  ∉ effects
      (resolveEnvPath resolve existsSync green cyan NODE_ENV dest
         (Some true) pattern).
Proof.
  destruct (first_present resolve existsSync dest files)
    as [Hall|(before & f & after & Hfiles & Hbefore & Hf)].
  - rewrite (resolveEnvPath_miss resolve existsSync green cyan NODE_ENV dest
               (Some true) pattern Hall).
    unfold effects. cbn [snd]. intros Hin.
    apply list_elem_of_fmap in Hin as (path & Heq & _). discriminate.
  - rewrite (resolveEnvPath_hit resolve existsSync green cyan NODE_ENV dest
               (Some true) pattern before after f Hfiles Hbefore Hf).
    destruct (JS.truthy (candidatePath resolve dest f));
      unfold effects; cbn [snd]; intros Hin.
    + apply elem_of_app in Hin as [Hin|Hin].
      * apply list_elem_of_fmap in Hin as (path & Heq & _). discriminate.
      * apply list_elem_of_singleton in Hin. unfold notice in Hin.
        cbn [default from_option] in Hin. by case_bool_decide.
    + apply list_elem_of_fmap in Hin as (path & Heq & _). discriminate.
Qed.
End ResolverExtras.

Lemma resolveEnvPath_silent_failure_witness :
  notifications
    (effects
       (resolveEnvPath Sample.resolve Sample.nothing Sample.plain Sample.plain
          None "/app" None None)) = [].
Proof.
  apply (resolveEnvPath_silent_failure
           Sample.resolve Sample.nothing Sample.plain Sample.plain
           None "/app" None None
           (failureMessage (filesToTry None defaultArgumentPattern))).
  reflexivity.
Defined.

Lemma resolveEnvPath_fallback_suffices_witness :
  ∃ path,
    completion
      (resolveEnvPath Sample.resolve Sample.onlyDotEnv Sample.plain
         Sample.plain (Some "test") "/app" None (Some scenario4))
    = Returned path
    ∧ Sample.onlyDotEnv path = true.
Proof.
  apply (resolveEnvPath_fallback_suffices
           Sample.resolve Sample.onlyDotEnv Sample.plain Sample.plain
           (Some "test") "/app" None (Some scenario4)
           sample_resolve_nonempty).
  reflexivity.
Defined.

